(** * candycache: an in-memory key/value cache with per-entry expiry

    A shallow embedding of [candycache.go].  The cache is a Go
    [map[string]Item] guarded by one readers-writer mutex; every exported
    method takes the lock for its whole body, so each method is modelled as
    one atomic function on the cache state.  The wall clock
    ([time.Now().Unix()]) is an input: every method that reads it takes the
    value read as an explicit argument.

    Layout: machine integers, the float64 arithmetic behind
    [time.Duration.Seconds], Go values as [reflect] sees them, the cache
    and its methods, the background collector, the snapshot protocol, and
    then the theorems. *)

From stdpp Require Import gmap strings list fin_maps.
From Stdlib Require Import ZArith Lia Floats.

#[local] Set Warnings "-register-all".
#[local] Open Scope Z_scope.

(** ** Machine integers *)

(** Go's [int64] (and [int] on a 64-bit target): two's complement, every
    arithmetic result wrapped into [-2^63, 2^63). *)
Definition int64_min : Z := - 2 ^ 63.
Definition int64_max : Z := 2 ^ 63 - 1.

Definition in_int64 (z : Z) : Prop := int64_min <= z <= int64_max.

Definition wrap64 (z : Z) : Z := (z + 2 ^ 63) mod 2 ^ 64 - 2 ^ 63.

Definition add64 (a b : Z) : Z := wrap64 (a + b).

(** ** float64 arithmetic

    [time.Duration.Seconds] computes in float64, so [Add] does too.  Every
    finite binary64 number is an integer multiple of [2^-1074] (the smallest
    subnormal); a float is represented here by that integer, its number of
    [units].  An operation computes the exact rational result and rounds it
    to the nearest number with a 53-bit significand, ties to even, as IEEE
    754 prescribes and as Go's [+] and [/] on float64 do.  Overflow to an
    infinity is not modelled: no value that [Seconds] computes exceeds
    [2^34]. *)
Module F64.

Record float64 := of_units { units : Z }.

(** The integer nearest to [p/q] (for [0 < q]), ties to the even one. *)
Definition rne (p q : Z) : Z :=
  let n := p / q in
  let r := p mod q in
  if 2 * r <? q then n
  else if q <? 2 * r then n + 1
  else if Z.even n then n else n + 1.

(** The exponent of the binade of [P/q] (in units), never below that of
    the subnormals. *)
Definition binade (P q : Z) : Z := Z.max (Z.log2 (P / q) - 52) 0.

(** [p/q] rounded to binary64, in units, for [0 <= p] and [0 < q]. *)
Definition round_pos (p q : Z) : Z :=
  let P := p * 2 ^ 1074 in
  let E := binade P q in
  rne P (q * 2 ^ E) * 2 ^ E.

(** Rounding is sign-symmetric. *)
Definition round (p q : Z) : float64 :=
  of_units (if p <? 0 then - round_pos (- p) q else round_pos p q).

(** [float64(z)] for an integer [z]. *)
Definition of_int (z : Z) : float64 := round z 1.

Definition add (x y : float64) : float64 :=
  round (units x + units y) (2 ^ 1074).

(** [x / y] for [y] other than zero. *)
Definition div (x y : float64) : float64 :=
  round (Z.sgn (units y) * units x) (Z.abs (units y)).

Definition opp (x : float64) : float64 := of_units (- units x).

(** [int64(x)]: the fraction is discarded (truncation toward zero). *)
Definition to_int (x : float64) : Z := Z.quot (units x) (2 ^ 1074).

(** The same operations on the kernel's binary64 numbers, to test the
    model above against. *)
Definition hw_of_int (z : Z) : float :=
  if z <? 0 then PrimFloat.opp (PrimFloat.of_uint63 (Uint63.of_Z (- z)))
  else PrimFloat.of_uint63 (Uint63.of_Z z).

Definition hw_units (f : float) : option Z :=
  match Prim2SF f with
  | S754_zero _ => Some 0
  | S754_finite s m e =>
      Some ((if s then -1 else 1) * Z.pos m * 2 ^ (e + 1074))
  | _ => None
  end.

End F64.

(** ** time.Duration *)

(** A [time.Duration] is an int64 count of nanoseconds. *)
Definition Second : Z := 1000000000.

(** [Duration.Seconds]:
    [sec := d / Second; nsec := d % Second;
     return float64(sec) + float64(nsec)/1e9]
    with Go's integer division and remainder (truncated, sign of the
    dividend). *)
Definition Seconds (d : Z) : F64.float64 :=
  let sec := Z.quot d Second in
  let nsec := Z.rem d Second in
  F64.add (F64.of_int sec) (F64.div (F64.of_int nsec) (F64.of_int 1000000000)).

(** [Seconds] on the kernel's floats. *)
Definition hw_Seconds (d : Z) : float :=
  PrimFloat.add (F64.hw_of_int (Z.quot d Second))
    (PrimFloat.div (F64.hw_of_int (Z.rem d Second)) (F64.hw_of_int 1000000000)).

(** Whether the model and the kernel's floats give the same [Seconds]. *)
Definition agreesWithHardware (d : Z) : bool :=
  match F64.hw_units (hw_Seconds d) with
  | Some u => u =? F64.units (Seconds d)
  | None => false
  end.

(** The whole seconds of a duration, toward zero. *)
Definition truncSeconds (d : Z) : Z := Z.quot d Second.

(** ** Go values, as far as [reflect.Kind] distinguishes them *)

(** The kinds that [isize] sends to its [default] branch: the value is
    charged [reflect.TypeOf(i).Size()] bytes. *)
Inductive Kind :=
| Bool | Int | Int8 | Int16 | Int32 | Int64
| Uint | Uint8 | Uint16 | Uint32 | Uint64 | Uintptr
| Float32 | Float64 | Complex64 | Complex128
| Chan | Func | Pointer | UnsafePointer.

(** [reflect.Type.Size] of a value of each such kind on a 64-bit target. *)
Definition kindSize (k : Kind) : Z :=
  match k with
  | Bool | Int8 | Uint8 => 1
  | Int16 | Uint16 => 2
  | Int32 | Uint32 | Float32 => 4
  | Int | Int64 | Uint | Uint64 | Uintptr | Float64 | Complex64 => 8
  | Complex128 => 16
  | Chan | Func | Pointer | UnsafePointer => 8
  end.

(** An [interface{}] value.  [VNil] is the nil interface; the elements of
    a container are what [Value.Index(i).Interface()],
    [Value.MapIndex(k).Interface()] and [Value.Field(i).Interface()] return
    (so an element of interface type that holds nothing is [VNil]).  A
    string is its bytes.  A struct is the list of its fields, all exported.
    Two shapes on which [isize] panics are outside this model: a struct
    with an unexported field ([Interface()] panics on it) and a map with a
    NaN key ([MapIndex] finds no entry under it). *)
Inductive GoValue :=
| VNil
| VScalar (k : Kind) (bits : Z)
| VString (s : string)
| VSlice (elems : list GoValue)
| VArray (elems : list GoValue)
| VMap (entries : list (GoValue * GoValue))
| VStruct (fields : list GoValue).

(** ** The cache *)

(** [Item]: the payload and the Unix second at which it becomes stale. *)
Record Item := mkItem {
  destroyTimestamp : Z;
  data : GoValue
}.

Record KeyItemPair := mkKeyItemPair {
  Key : string;
  Item_ : Item
}.

(** [Cache]: the storage and the cleanup interval (nanoseconds).  The
    embedded mutex has no state of its own in a sequential model. *)
Record Cache := mkCache {
  storage : gmap string Item;
  cleanupInterval : Z
}.

Inductive error := errorsNew (msg : string).

Definition Data (i : Item) : GoValue := data i.
Definition DestroyTimestamp (i : Item) : Z := destroyTimestamp i.

(** ** Methods *)

(** [Cleanup]'s loop body: [if item.destroyTimestamp <= time.Now().Unix()
    { delete(c.storage, key) }].  The clock is read once per entry;
    [clock key] is the value read when the loop is at [key]. *)
Definition sweepStep (clock : string → Z) (st : gmap string Item)
    (entry : string * Item) : gmap string Item :=
  if decide (destroyTimestamp entry.2 ≤ clock entry.1)
  then delete entry.1 st else st.

(** [for key, item := range c.storage { ... }] over the entries in the
    order [order] (Go leaves the order unspecified; deleting the entry the
    loop stands on does not disturb the iteration). *)
Definition sweep (clock : string → Z) (order : list (string * Item))
    (st : gmap string Item) : gmap string Item :=
  foldl (sweepStep clock) st order.

Definition CleanupClock (clock : string → Z) (c : Cache) : Cache :=
  mkCache (sweep clock (map_to_list (storage c)) (storage c))
          (cleanupInterval c).

(** [Cleanup] running at the Unix second [now]. *)
Definition Cleanup (now : Z) (c : Cache) : Cache :=
  CleanupClock (λ _, now) c.

Definition Flush (c : Cache) : Cache :=
  mkCache (foldl (λ st entry, delete entry.1 st) (storage c)
             (map_to_list (storage c)))
          (cleanupInterval c).

Definition Get (key : string) (c : Cache) : GoValue * bool :=
  match storage c !! key with
  | None => (VNil, false)
  | Some item => (data item, true)
  end.

Definition Delete (key : string) (c : Cache) : Cache * option error :=
  match storage c !! key with
  | None => (c, Some (errorsNew "key not found"))
  | Some _ => (mkCache (delete key (storage c)) (cleanupInterval c), None)
  end.

(** [Add] at the Unix second [now]; [ttl] is a [time.Duration]. *)
Definition Add (key : string) (data : GoValue) (ttl : Z) (now : Z)
    (c : Cache) : Cache :=
  mkCache
    (<[key := mkItem (add64 now (F64.to_int (Seconds ttl))) data]> (storage c))
    (cleanupInterval c).

Definition Count (c : Cache) : Z := Z.of_nat (size (storage c)).

Definition List (c : Cache) : list KeyItemPair :=
  (λ entry, mkKeyItemPair entry.1 entry.2) <$> map_to_list (storage c).

(** [isize]: nil is 0; a slice, array or string is the sum over its
    elements; a map the sum over its keys and values; a struct the sum
    over its fields; anything else the size of its type.  [size] is a Go
    [int]. *)
Fixpoint isize (i : GoValue) : Z :=
  match i with
  | VNil => 0
  | VSlice elems | VArray elems =>
      foldl (λ size e, add64 size (isize e)) 0 elems
  | VString s =>
      foldl (λ size b, add64 size (kindSize Uint8)) 0 (String.list_ascii_of_string s)
  | VMap entries =>
      foldl (λ size kv, add64 size (add64 (isize kv.1) (isize kv.2))) 0 entries
  | VStruct fields =>
      foldl (λ size f, add64 size (isize f)) 0 fields
  | VScalar k _ => kindSize k
  end.

(** [Size]'s loop body:
    [size += isize(key) + isize(item.data) + isize(item.destroyTimestamp)]. *)
Definition sizeStep (size : Z) (entry : string * Item) : Z :=
  add64 size
    (add64 (add64 (isize (VString entry.1)) (isize (data entry.2)))
           (isize (VScalar Int64 (destroyTimestamp entry.2)))).

Definition Size (c : Cache) : Z :=
  foldl sizeStep 0 (map_to_list (storage c)).

(** ** The exported methods as data *)

(** One call of an exported method of [*Cache], with its arguments and,
    where the method reads the clock, the Unix second it reads. *)
Inductive Method :=
| CallCleanup (now : Z)
| CallFlush
| CallGet (key : string)
| CallDelete (key : string)
| CallAdd (key : string) (data : GoValue) (ttl : Z) (now : Z)
| CallCount
| CallList
| CallSize.

(** The cache after the call (the read-only methods leave it as it is). *)
Definition exec (m : Method) (c : Cache) : Cache :=
  match m with
  | CallCleanup now => Cleanup now c
  | CallFlush => Flush c
  | CallDelete key => (Delete key c).1
  | CallAdd key data ttl now => Add key data ttl now c
  | CallGet _ | CallCount | CallList | CallSize => c
  end.

(** ** The background collector *)

(** What one step of [for range ch] can meet: a value, or the channel
    closed. *)
Inductive Received (A : Type) :=
| Value (a : A)
| Closed.
Arguments Value {A} a.
Arguments Closed {A}.

(** Where the goroutine running [gc] stands: in its [for range ticker.C]
    loop, or returned (the loop left and the deferred [ticker.Stop] run). *)
Inductive gcState :=
| Ranging
| Returned.

(** A cache together with its collector goroutine, if one was started. *)
Record Process := mkProcess {
  cache : Cache;
  collector : option gcState
}.

(** [Cacher]: an empty cache; [go cache.gc(cleanupInterval)] only for a
    positive interval. *)
Definition Cacher (cleanupInterval : Z) : Process :=
  mkProcess (mkCache ∅ cleanupInterval)
            (if decide (0 < cleanupInterval) then Some Ranging else None).

(** One step of [gc]'s loop, [for range ticker.C { c.Cleanup() }]: a tick
    runs one [Cleanup] (which reads the clock as [now]) and loops; a closed
    channel ends the loop. *)
Definition gc (r : Received Z) (p : Process) : Process :=
  match collector p with
  | Some Ranging =>
      match r with
      | Value now => mkProcess (Cleanup now (cache p)) (Some Ranging)
      | Closed => mkProcess (cache p) (Some Returned)
      end
  | _ => p
  end.

(** What can happen to a process: the ticker sends on [ticker.C], or a
    client calls an exported method.  Nothing closes [ticker.C]: the
    ticker is a local of [gc], the runtime only ever sends on the channel
    ([Ticker.Stop] does not close it), and [gc] stops the ticker only
    after its loop. *)
Inductive Event :=
| Tick (now : Z)
| Call (m : Method).

Definition step (p : Process) (e : Event) : Process :=
  match e with
  | Tick now => gc (Value now) p
  | Call m => mkProcess (exec m (cache p)) (collector p)
  end.

Definition run (p : Process) (events : list Event) : Process :=
  foldl step p events.

(** ** The snapshot protocol *)

Inductive SnapshotError :=
| EncodingError
| DecodingError
| IOError.

Section SnapshotProtocol.

(** The bytes of a dump, and the pluggable encoding of the entry
    mapping: [encode] fails on a mapping that holds a value it cannot
    represent, [decode] on a malformed or truncated dump. *)
Variable Bytes : Type.
Variable encode : gmap string Item → option Bytes.
Variable decode : Bytes → option (gmap string Item).

(** Modelled from the spec: [Save] is not in the source files.  It
    encodes every (key, value, expiresAt) triple and writes the encoded
    form to the sink; it fails with [EncodingError] if a stored value
    cannot be represented and with [IOError] if the sink rejects the
    write ([accepts = false]); it does not change the store.  The result
    is what the sink holds afterwards. *)
Definition Save (accepts : bool) (c : Cache) : SnapshotError + Bytes :=
  match encode (storage c) with
  | None => inl EncodingError
  | Some dump => if accepts then inr dump else inl IOError
  end.

(** Modelled from the spec: [Load] is not in the source files.  It
    reads the source ([None]: it cannot be read) and decodes it; on
    success it replaces the store's entire mapping with the decoded one;
    on any failure the store is left untouched. *)
Definition Load (source : option Bytes) (c : Cache)
    : Cache * option SnapshotError :=
  match source with
  | None => (c, Some IOError)
  | Some dump =>
      match decode dump with
      | None => (c, Some DecodingError)
      | Some m => (mkCache m (cleanupInterval c), None)
      end
  end.

(** The encoding is lossless: what [encode] produces, [decode] reads
    back as the same mapping. *)
Definition lossless : Prop :=
  ∀ m dump, encode m = Some dump → decode dump = Some m.

End SnapshotProtocol.

Arguments Save {Bytes} encode accepts c.
Arguments Load {Bytes} decode source c.
Arguments lossless {Bytes} encode decode.

(** A sequence of [Set] calls ([Add] in the source), each with the clock
    reading it sees. *)
Definition Sets (calls : list (string * GoValue * Z * Z)) (c : Cache) : Cache :=
  foldl (λ c call, Add call.1.1.1 call.1.1.2 call.1.2 call.2 c) c calls.

(** ** Auxiliary definitions *)

(** A small cache to evaluate the methods on: ["a"] stale at second 5,
    ["b"] live until second 60. *)
Definition sample : Cache :=
  mkCache (<["a" := mkItem 5 (VScalar Int 1)]>
             (<["b" := mkItem 60 (VScalar Int 2)]> ∅)) (-1).

(** Sum of [g] over a list, in unbounded integers. *)
Definition total {A} (g : A → Z) (l : list A) : Z := foldr (λ x acc, g x + acc) 0 l.

(** What one entry adds to [Size], before wrapping. *)
Definition entrySize (entry : string * Item) : Z :=
  add64 (add64 (isize (VString entry.1)) (isize (data entry.2)))
        (isize (VScalar Int64 (destroyTimestamp entry.2))).

(** The bytes [Size] charges for one entry: the key, the data and the
    8-byte timestamp. *)
Definition entryBytes (entry : string * Item) : Z :=
  Z.of_nat (String.length entry.1) + isize (data entry.2) + 8.

(** An encoding to instantiate the protocol with: the dump is the list of
    entries. *)
Definition listEncode (m : gmap string Item) : option (list (string * Item)) :=
  Some (map_to_list m).

Definition listDecode (dump : list (string * Item)) : option (gmap string Item) :=
  Some (list_to_map dump).

(** * Theorems *)

(** ** Machine integers *)

Lemma wrap64_id z : in_int64 z → wrap64 z = z.
Proof.
  unfold in_int64, int64_min, int64_max, wrap64. intros Hz.
  rewrite Z.mod_small by lia. lia.
Qed.

Lemma wrap64_wrap64_add_l a b : wrap64 (wrap64 a + b) = wrap64 (a + b).
Proof.
  unfold wrap64. f_equal.
  replace ((a + 2 ^ 63) mod 2 ^ 64 - 2 ^ 63 + b + 2 ^ 63)
    with ((a + 2 ^ 63) mod 2 ^ 64 + b) by lia.
  rewrite Zplus_mod_idemp_l. f_equal. lia.
Qed.

Lemma wrap64_wrap64_add_r a b : wrap64 (a + wrap64 b) = wrap64 (a + b).
Proof. by rewrite (Z.add_comm a), wrap64_wrap64_add_l, (Z.add_comm b). Qed.

Lemma wrap64_idemp z : wrap64 (wrap64 z) = wrap64 z.
Proof.
  pose proof (wrap64_wrap64_add_l z 0) as H. by rewrite !Z.add_0_r in H.
Qed.

(** ** Sweeping *)

Section Sweep.

Variable clock : string → Z.

Lemma sweep_absent order (st : gmap string Item) key :
  st !! key = None → sweep clock order st !! key = None.
Proof.
  revert st. induction order as [|[k it] order IH]; intros st Hst; [done|].
  simpl. apply IH. unfold sweepStep. simpl.
  case_decide; [|done].
  destruct (decide (k = key)) as [->|]; by simplify_map_eq.
Qed.

Lemma sweep_stale order (st : gmap string Item) key item :
  (key, item) ∈ order → destroyTimestamp item ≤ clock key →
  sweep clock order st !! key = None.
Proof.
  revert st. induction order as [|[k it] order IH]; intros st Hin Hstale.
  - by apply elem_of_nil in Hin.
  - simpl. apply elem_of_cons in Hin as [[= <- <-]|Hin]; [|by apply IH].
    apply sweep_absent. unfold sweepStep. simpl.
    rewrite decide_True by done. apply lookup_delete_eq.
Qed.

Lemma sweep_live order (st : gmap string Item) key :
  (∀ item, (key, item) ∈ order → clock key < destroyTimestamp item) →
  sweep clock order st !! key = st !! key.
Proof.
  revert st. induction order as [|[k it] order IH]; intros st Hlive; [done|].
  simpl. rewrite IH.
  - unfold sweepStep. simpl. case_decide as Hstale; [|done].
    destruct (decide (k = key)) as [->|]; [|by simplify_map_eq].
    specialize (Hlive it (list_elem_of_here _ _)). lia.
  - intros item Hin. apply Hlive. by apply list_elem_of_further.
Qed.

(** The sweep keeps exactly the entries whose timestamp is after the
    clock reading taken at them. *)
Lemma CleanupClock_lookup c key :
  storage (CleanupClock clock c) !! key =
    match storage c !! key with
    | Some item =>
        if decide (destroyTimestamp item ≤ clock key) then None else Some item
    | None => None
    end.
Proof.
  unfold CleanupClock. simpl.
  destruct (storage c !! key) as [item|] eqn:Hkey.
  - case_decide as Hstale.
    + eapply sweep_stale; [|done]. by apply elem_of_map_to_list.
    + rewrite sweep_live; [done|].
      intros item' Hin%elem_of_map_to_list. simplify_eq. lia.
  - by apply sweep_absent.
Qed.


End Sweep.

Lemma Cleanup_lookup now c key :
  storage (Cleanup now c) !! key =
    match storage c !! key with
    | Some item => if decide (destroyTimestamp item ≤ now) then None else Some item
    | None => None
    end.
Proof. apply CleanupClock_lookup. Qed.

Lemma Cleanup_interval now c :
  cleanupInterval (Cleanup now c) = cleanupInterval c.
Proof. done. Qed.

Lemma Cache_eq (c1 c2 : Cache) :
  (∀ key, storage c1 !! key = storage c2 !! key) →
  cleanupInterval c1 = cleanupInterval c2 → c1 = c2.
Proof.
  destruct c1 as [s1 i1], c2 as [s2 i2]. simpl. intros Hs ->.
  f_equal. by apply map_eq.
Qed.

(** Two sweeps in a row amount to one sweep at the later clock reading. *)
Lemma Cleanup_Cleanup now1 now2 c :
  Cleanup now2 (Cleanup now1 c) = Cleanup (Z.max now1 now2) c.
Proof.
  apply Cache_eq; [|done]. intros key. rewrite !Cleanup_lookup.
  destruct (storage c !! key) as [item|]; [|done].
  repeat case_decide; try done; lia.
Qed.

Lemma Flush_storage c : storage (Flush c) = ∅.
Proof.
  unfold Flush. simpl. apply map_eq. intros key. rewrite lookup_empty.
  assert (Hgen : ∀ (order : list (string * Item)) (st : gmap string Item),
    (∀ k it, st !! k = Some it → (k, it) ∈ order) →
    foldl (λ st entry, delete entry.1 st) st order !! key = None).
  { induction order as [|[k it] order IH]; intros st Hcov.
    - destruct (st !! key) as [it|] eqn:Hk; [|done].
      by apply Hcov, elem_of_nil in Hk.
    - simpl. apply IH. intros k' it' Hk'.
      destruct (decide (k = k')) as [->|Hne]; [by simplify_map_eq|].
      rewrite lookup_delete_ne in Hk' by done.
      apply Hcov, elem_of_cons in Hk' as [[= -> ->]|]; done. }
  apply Hgen. intros k it. by rewrite elem_of_map_to_list.
Qed.

(** ** Lookup, insertion and deletion *)

(** The timestamp [Add] stores: [time.Now().Unix() + int64(ttl.Seconds())]. *)
Lemma Add_lookup key v ttl now c :
  storage (Add key v ttl now c) !! key
  = Some (mkItem (add64 now (F64.to_int (Seconds ttl))) v).
Proof. unfold Add. simpl. apply lookup_insert_eq. Qed.

Lemma Add_lookup_ne key v ttl now c key' :
  key ≠ key' → storage (Add key v ttl now c) !! key' = storage c !! key'.
Proof. intros Hne. unfold Add. simpl. by apply lookup_insert_ne. Qed.

Lemma Delete_present key c item :
  storage c !! key = Some item →
  Delete key c = (mkCache (delete key (storage c)) (cleanupInterval c), None).
Proof. intros Hkey. unfold Delete. by rewrite Hkey. Qed.

Lemma Delete_missing key c :
  storage c !! key = None → Delete key c = (c, Some (errorsNew "key not found")).
Proof. intros Hkey. unfold Delete. by rewrite Hkey. Qed.

(** C1: [Add(k, v, ttl)] followed by [Get(k)] returns [(v, true)] for
    every [ttl], whatever its sign; [Get(k)] returns the stored value and
    [true] whenever [k] is in the mapping ([Get] never reads the clock, so
    an entry past its timestamp is returned like any other), and it
    returns [false] exactly when [k] is absent. *)
Theorem Get_returns_stored key v ttl now c :
  Get key (Add key v ttl now c) = (v, true)
  ∧ (∀ item, storage c !! key = Some item → Get key c = (data item, true))
  ∧ ((Get key c).2 = false ↔ storage c !! key = None).
Proof.
  repeat split.
  - unfold Get. by rewrite Add_lookup.
  - intros item Hkey. unfold Get. by rewrite Hkey.
  - unfold Get. by destruct (storage c !! key).
  - intros Hkey. unfold Get. by rewrite Hkey.
Qed.

(** C2: [Cleanup] running at the second [now] removes exactly the
    entries with [destroyTimestamp <= now]: such an entry is absent
    afterwards, an entry with [destroyTimestamp > now] is still there
    unchanged, and no key appears that was not there. *)
Theorem Cleanup_removes_exactly_stale now c key :
  (∀ item, storage c !! key = Some item → destroyTimestamp item ≤ now →
     storage (Cleanup now c) !! key = None)
  ∧ (∀ item, storage c !! key = Some item → now < destroyTimestamp item →
     storage (Cleanup now c) !! key = Some item)
  ∧ (storage c !! key = None → storage (Cleanup now c) !! key = None).
Proof.
  rewrite Cleanup_lookup. repeat split.
  - intros item -> Hstale. by rewrite decide_True.
  - intros item -> Hlive. rewrite decide_False; [done|lia].
  - by intros ->.
Qed.

(** C4: [Delete(k)] for an absent [k] returns the "key not found" error
    and leaves the cache as it was: every entry keeps its value and
    timestamp, and [Count] is the same. *)
Theorem Delete_absent_unchanged key c :
  storage c !! key = None →
  (Delete key c).2 = Some (errorsNew "key not found")
  ∧ (Delete key c).1 = c
  ∧ (∀ key', storage (Delete key c).1 !! key' = storage c !! key')
  ∧ Count (Delete key c).1 = Count c.
Proof. intros Hkey. by rewrite Delete_missing. Qed.

Lemma Delete_absent_unchanged_witness :
  (Delete "c" sample).2 = Some (errorsNew "key not found")
  ∧ (Delete "c" sample).1 = sample
  ∧ (∀ key', storage (Delete "c" sample).1 !! key' = storage sample !! key')
  ∧ Count (Delete "c" sample).1 = Count sample.
Proof. apply (Delete_absent_unchanged "c" sample). reflexivity. Defined.



(** C6, refuted: each call of [Cleanup] reads the clock itself.  With
    nothing inserted in between, a sweep at second 4 keeps ["a"], due at
    second 5, and the sweep that follows at second 5 removes it: the second
    call does not leave the cache as the first one left it. *)
Lemma Cleanup_twice_removes_more :
  storage (Cleanup 4 sample) !! "a" = Some (mkItem 5 (VScalar Int 1))
  ∧ storage (Cleanup 5 (Cleanup 4 sample)) !! "a" = None
  ∧ Cleanup 5 (Cleanup 4 sample) ≠ Cleanup 4 sample.
Proof.
  split; [reflexivity|]. split; [reflexivity|].
  intros Heq. apply (f_equal (λ c, storage c !! "a")) in Heq.
  vm_compute in Heq. discriminate Heq.
Qed.

(** C6, amended: [Cleanup] is idempotent at one clock reading: two
    calls in succession that read the same Unix second, with nothing
    inserted in between, leave the cache exactly as one call leaves it (the
    second call removes nothing). *)
Theorem Cleanup_idempotent now c :
  Cleanup now (Cleanup now c) = Cleanup now c.
Proof. by rewrite Cleanup_Cleanup, Z.max_id. Qed.

(** C9: a successful [Delete(k)] removes [k]'s entry and nothing else,
    and [Add(k, v, ttl)] changes the binding of [k] and nothing else: every
    other key has the entry it had before. *)
Theorem Delete_Add_frame key c :
  (∀ item, storage c !! key = Some item →
     (Delete key c).2 = None
     ∧ storage (Delete key c).1 !! key = None
     ∧ ∀ key', key' ≠ key →
         storage (Delete key c).1 !! key' = storage c !! key')
  ∧ (∀ v ttl now key', key' ≠ key →
       storage (Add key v ttl now c) !! key' = storage c !! key').
Proof.
  split.
  - intros item Hkey. rewrite (Delete_present _ _ _ Hkey). simpl.
    split; [done|]. split; [apply lookup_delete_eq|].
    intros key' Hne. by apply lookup_delete_ne.
  - intros v ttl now key' Hne. by apply Add_lookup_ne.
Qed.

(** ** Size estimation *)

Lemma total_perm {A} (g : A → Z) l1 l2 : l1 ≡ₚ l2 → total g l1 = total g l2.
Proof.
  induction 1 as [|x l1 l2 _ IH|x y l|l1 l2 l3 _ IH1 _ IH2]; simpl; lia.
Qed.

(** A loop [size += g(x)] over a list, started from an [int], ends at the
    wrapped sum. *)
Lemma foldl_add64 {A} (g : A → Z) (l : list A) (a : Z) :
  wrap64 a = a →
  foldl (λ size x, add64 size (g x)) a l = wrap64 (a + total g l).
Proof.
  revert a. induction l as [|x l IH]; intros a Ha; simpl.
  - by rewrite Z.add_0_r.
  - rewrite IH by apply wrap64_idemp. unfold add64.
    rewrite wrap64_wrap64_add_l. f_equal. lia.
Qed.

Lemma length_list_ascii (s : string) :
  length (String.list_ascii_of_string s) = String.length s.
Proof. induction s as [|a s IH]; simpl; congruence. Qed.

Lemma total_const {A} (l : list A) z : total (λ _, z) l = z * Z.of_nat (length l).
Proof. induction l as [|x l IH]; simpl; lia. Qed.

(** A string is charged one byte per byte. *)
Lemma isize_string s : isize (VString s) = wrap64 (Z.of_nat (String.length s)).
Proof.
  simpl. rewrite (foldl_add64 (λ _, 1)) by done.
  by rewrite total_const, length_list_ascii, Z.add_0_l, Z.mul_1_l.
Qed.

Lemma Size_total c : Size c = wrap64 (total entrySize (map_to_list (storage c))).
Proof.
  unfold Size.
  change sizeStep with (λ size entry, add64 size (entrySize entry)).
  by rewrite foldl_add64.
Qed.

Lemma wrap64_entrySize key item z :
  wrap64 (z + entrySize (key, item))
  = wrap64 (z + Z.of_nat (String.length key) + isize (data item) + 8).
Proof.
  unfold entrySize, add64. cbn [fst snd]. rewrite isize_string.
  change (isize (VScalar Int64 _)) with 8.
  generalize (Z.of_nat (String.length key)) (isize (data item)). intros x y.
  rewrite wrap64_wrap64_add_r.
  replace (z + (wrap64 (wrap64 x + y) + 8))
    with (wrap64 (wrap64 x + y) + (z + 8)) by lia.
  rewrite wrap64_wrap64_add_l.
  replace (wrap64 x + y + (z + 8)) with (wrap64 x + (y + z + 8)) by lia.
  rewrite wrap64_wrap64_add_l. f_equal. lia.
Qed.


(** ** The background collector *)

Lemma step_collector p e :
  collector p = Some Ranging → collector (step p e) = Some Ranging.
Proof.
  intros Hp. destruct e as [now|m]; simpl; [|done].
  unfold gc. by rewrite Hp.
Qed.

Lemma run_collector events p :
  collector p = Some Ranging → collector (run p events) = Some Ranging.
Proof.
  revert p. induction events as [|e events IH]; intros p Hp; [done|].
  simpl. by apply IH, step_collector.
Qed.

Lemma Cacher_collector d : 0 < d → collector (Cacher d) = Some Ranging.
Proof. intros Hd. unfold Cacher. simpl. by rewrite decide_True. Qed.

(** C7, refuted: no stop signal exists.  Whatever methods are called
    and however often the ticker fires, the collector started by a positive
    interval is still in its loop. *)
Lemma collector_has_no_stop_signal :
  ¬ ∃ (d : Z) (events : list Event),
      0 < d ∧ collector (run (Cacher d) events) ≠ Some Ranging.
Proof.
  intros (d & events & Hd & Hstopped). apply Hstopped.
  by apply run_collector, Cacher_collector.
Qed.

(** C7, amended: the collector started by a positive interval runs one
    whole [Cleanup] at every tick and cannot be stopped: after any
    sequence of method calls and ticks it is still ranging over
    [ticker.C], and the next tick sweeps the cache again. *)
Theorem collector_sweeps_forever d events now :
  0 < d →
  collector (run (Cacher d) events) = Some Ranging
  ∧ step (run (Cacher d) events) (Tick now)
    = mkProcess (Cleanup now (cache (run (Cacher d) events))) (Some Ranging).
Proof.
  intros Hd.
  assert (Hrun : collector (run (Cacher d) events) = Some Ranging)
    by by apply run_collector, Cacher_collector.
  split; [done|]. simpl. unfold gc. by rewrite Hrun.
Qed.

Lemma collector_sweeps_forever_witness :
  collector (run (Cacher 1) [Call (CallAdd "a" VNil 0 10); Tick 10; Call CallFlush])
    = Some Ranging
  ∧ step (run (Cacher 1) [Call (CallAdd "a" VNil 0 10); Tick 10; Call CallFlush])
         (Tick 11)
    = mkProcess
        (Cleanup 11
           (cache (run (Cacher 1)
                     [Call (CallAdd "a" VNil 0 10); Tick 10; Call CallFlush])))
        (Some Ranging).
Proof.
  apply (collector_sweeps_forever 1
           [Call (CallAdd "a" VNil 0 10); Tick 10; Call CallFlush] 11).
  lia.
Defined.

(** ** The snapshot protocol *)

(** C3: with a lossless encoding, [Save] of the state reached by any
    sequence of [Set] calls, followed by [Load] of the dump into another
    cache, succeeds and leaves that cache with exactly the saved mapping
    (keys, values and timestamps, stale or not); a key the destination held
    that is not in the dump is gone. *)
Theorem Load_Save_roundtrip {Bytes : Type}
    (encode : gmap string Item → option Bytes)
    (decode : Bytes → option (gmap string Item))
    (calls : list (string * GoValue * Z * Z)) (c0 dest : Cache) (dump : Bytes) :
  lossless encode decode →
  Save encode true (Sets calls c0) = inr dump →
  (Load decode (Some dump) dest).2 = None
  ∧ storage (Load decode (Some dump) dest).1 = storage (Sets calls c0)
  ∧ (∀ key, storage (Sets calls c0) !! key = None →
       storage (Load decode (Some dump) dest).1 !! key = None).
Proof.
  intros Hlossless Hsave. unfold Save in Hsave.
  destruct (encode (storage (Sets calls c0))) as [dump'|] eqn:Henc; [|done].
  injection Hsave as ->. apply Hlossless in Henc.
  unfold Load. rewrite Henc. simpl. by repeat split.
Qed.

Lemma listEncode_lossless : lossless listEncode listDecode.
Proof.
  intros m dump [= <-]. unfold listDecode. by rewrite list_to_map_to_list.
Qed.

Lemma Load_Save_roundtrip_witness :
  (Load listDecode
     (Some (map_to_list (storage (Sets [("x", VScalar Int 1, 60 * Second, 100)]
                                   (mkCache ∅ (-1))))))
     sample).2 = None
  ∧ storage
      (Load listDecode
         (Some (map_to_list (storage (Sets [("x", VScalar Int 1, 60 * Second, 100)]
                                       (mkCache ∅ (-1))))))
         sample).1
    = storage (Sets [("x", VScalar Int 1, 60 * Second, 100)] (mkCache ∅ (-1)))
  ∧ (∀ key,
       storage (Sets [("x", VScalar Int 1, 60 * Second, 100)] (mkCache ∅ (-1)))
         !! key = None →
       storage
         (Load listDecode
            (Some (map_to_list (storage (Sets [("x", VScalar Int 1, 60 * Second, 100)]
                                          (mkCache ∅ (-1))))))
            sample).1 !! key = None).
Proof.
  apply (Load_Save_roundtrip listEncode listDecode
           [("x", VScalar Int 1, 60 * Second, 100)] (mkCache ∅ (-1)) sample).
  - exact listEncode_lossless.
  - reflexivity.
Defined.

(** ** float64 rounding *)

Lemma rne_ge p q N : 0 < q → N * q ≤ p → N ≤ F64.rne p q.
Proof.
  intros Hq Hp. unfold F64.rne.
  assert (N ≤ p / q) by (apply Z.div_le_lower_bound; lia).
  repeat case_match; lia.
Qed.

Lemma rne_le p q N : 0 < q → p ≤ N * q → F64.rne p q ≤ N.
Proof.
  intros Hq Hp. unfold F64.rne.
  pose proof (Z.div_mod p q ltac:(lia)) as Hdm.
  pose proof (Z.mod_pos_bound p q Hq) as Hr.
  assert (p / q ≤ N) by (apply Z.div_le_upper_bound; lia).
  assert (0 < p mod q → p / q < N) by nia.
  repeat case_match; lia.
Qed.

Lemma rne_lt_half p q K : 0 < q → 2 * p < (2 * K - 1) * q → F64.rne p q ≤ K - 1.
Proof.
  intros Hq Hp. unfold F64.rne.
  pose proof (Z.div_mod p q ltac:(lia)) as Hdm.
  pose proof (Z.mod_pos_bound p q Hq) as Hr.
  assert (p / q ≤ K - 1) by nia.
  assert (p / q = K - 1 → 2 * (p mod q) < q) by nia.
  repeat case_match; lia.
Qed.


(** A number of the binade [E > 0] is at least [2^(E+52)] units. *)
Lemma binade_lower P q :
  0 ≤ P → 0 < q → 0 < F64.binade P q → q * 2 ^ (F64.binade P q + 52) ≤ P.
Proof.
  intros HP Hq. unfold F64.binade. intros HE.
  assert (Hlog : 52 < Z.log2 (P / q)) by lia.
  rewrite Z.max_l by lia.
  replace (Z.log2 (P / q) - 52 + 52) with (Z.log2 (P / q)) by lia.
  assert (Hpos : 0 < P / q).
  { destruct (Z_lt_le_dec 0 (P / q)) as [|Hle]; [done|].
    rewrite Z.log2_nonpos in Hlog by done. lia. }
  pose proof (Z.log2_spec _ Hpos) as [Hlo _].
  pose proof (Z.mul_div_le P q Hq). nia.
Qed.

Lemma binade_nonneg P q : 0 ≤ F64.binade P q.
Proof. unfold F64.binade. lia. Qed.

Lemma binade_upper P q E0 :
  0 ≤ P → 0 < q → 0 ≤ E0 → P < q * 2 ^ (E0 + 53) → F64.binade P q ≤ E0.
Proof.
  intros HP Hq HE0 Hlt. unfold F64.binade.
  apply Z.max_lub; [|done].
  destruct (Z_lt_le_dec 0 (P / q)) as [Hpos|Hle].
  - assert (P / q < 2 ^ (E0 + 53)) as Hdiv.
    { apply Z.div_lt_upper_bound; [done|]. lia. }
    apply Z.log2_lt_pow2 in Hdiv; [lia|done].
  - rewrite Z.log2_nonpos by done. lia.
Qed.

Lemma round_pos_le p q N g :
  0 ≤ p → 0 < q → 0 ≤ N < 2 ^ 53 → 0 ≤ g →
  p * 2 ^ 1074 ≤ N * 2 ^ g * q → F64.round_pos p q ≤ N * 2 ^ g.
Proof.
  intros Hp Hq HN Hg Hle. unfold F64.round_pos.
  set (P := p * 2 ^ 1074) in *. set (E := F64.binade P q).
  assert (HP : 0 ≤ P) by (unfold P; lia).
  pose proof (binade_nonneg P q) as HE0. fold E in HE0.
  assert (0 < 2 ^ E) as HpowE by (by apply Z.pow_pos_nonneg).
  destruct (Z_le_gt_dec E g) as [HEg|HEg].
  - assert (2 ^ g = 2 ^ (g - E) * 2 ^ E) as Hsplit.
    { rewrite <- Z.pow_add_r by lia. f_equal. lia. }
    assert (F64.rne P (q * 2 ^ E) ≤ N * 2 ^ (g - E)).
    { apply rne_le; [lia|]. rewrite Hsplit in Hle. lia. }
    rewrite Hsplit. nia.
  - exfalso.
    pose proof (binade_lower P q HP Hq ltac:(fold E; lia)) as Hlow. fold E in Hlow.
    assert (2 ^ 53 * 2 ^ g ≤ 2 ^ (E + 52)).
    { rewrite <- Z.pow_add_r by lia. apply Z.pow_le_mono_r; lia. }
    assert (0 < 2 ^ g) by (by apply Z.pow_pos_nonneg).
    assert (N * 2 ^ g < 2 ^ 53 * 2 ^ g) by (apply Z.mul_lt_mono_pos_r; lia).
    assert (N * 2 ^ g * q < 2 ^ (E + 52) * q).
    { apply Z.mul_lt_mono_pos_r; lia. }
    lia.
Qed.

Lemma round_pos_ge p q N g :
  0 ≤ p → 0 < q → 0 ≤ N < 2 ^ 53 → 0 ≤ g →
  N * 2 ^ g * q ≤ p * 2 ^ 1074 → N * 2 ^ g ≤ F64.round_pos p q.
Proof.
  intros Hp Hq HN Hg Hle. unfold F64.round_pos.
  set (P := p * 2 ^ 1074) in *. set (E := F64.binade P q).
  assert (HP : 0 ≤ P) by (unfold P; lia).
  pose proof (binade_nonneg P q) as HE0. fold E in HE0.
  assert (0 < 2 ^ E) as HpowE by (by apply Z.pow_pos_nonneg).
  destruct (Z_le_gt_dec E g) as [HEg|HEg].
  - assert (2 ^ g = 2 ^ (g - E) * 2 ^ E) as Hsplit.
    { rewrite <- Z.pow_add_r by lia. f_equal. lia. }
    assert (N * 2 ^ (g - E) ≤ F64.rne P (q * 2 ^ E)).
    { apply rne_ge; [lia|]. rewrite Hsplit in Hle. lia. }
    rewrite Hsplit. nia.
  - pose proof (binade_lower P q HP Hq ltac:(fold E; lia)) as Hlow. fold E in Hlow.
    assert (2 ^ 53 * 2 ^ g ≤ 2 ^ (E + 52)).
    { rewrite <- Z.pow_add_r by lia. apply Z.pow_le_mono_r; lia. }
    assert (0 < 2 ^ g) by (by apply Z.pow_pos_nonneg).
    assert (2 ^ (E + 52) = 2 ^ 52 * 2 ^ E) as Hsplit.
    { rewrite <- Z.pow_add_r by lia. f_equal. lia. }
    assert (2 ^ 52 ≤ F64.rne P (q * 2 ^ E)).
    { apply rne_ge; [lia|]. rewrite Hsplit in Hlow. lia. }
    nia.
Qed.

(** Below the midpoint under [K * 2^E0], a number of a binade up to [E0]
    rounds to less than [K * 2^E0]. *)
Lemma round_pos_lt p q K E0 :
  0 ≤ p → 0 < q → 1 ≤ E0 → 0 < K →
  p * 2 ^ 1074 < q * 2 ^ (E0 + 53) →
  p * 2 ^ 1074 < (2 * K - 1) * 2 ^ (E0 - 1) * q →
  F64.round_pos p q < K * 2 ^ E0.
Proof.
  intros Hp Hq HE0 HK Hbin Hlt. unfold F64.round_pos.
  set (P := p * 2 ^ 1074) in *. set (E := F64.binade P q).
  assert (HP : 0 ≤ P) by (unfold P; lia).
  pose proof (binade_nonneg P q) as HE. fold E in HE.
  pose proof (binade_upper P q E0 HP Hq ltac:(lia) Hbin) as HEle. fold E in HEle.
  assert (0 < 2 ^ E) as HpowE by (by apply Z.pow_pos_nonneg).
  assert (2 ^ E0 = 2 * 2 ^ (E0 - 1)) as Hhalf.
  { rewrite <- Z.pow_succ_r by lia. f_equal. lia. }
  assert (0 < 2 ^ (E0 - 1)) by (apply Z.pow_pos_nonneg; lia).
  destruct (Z_lt_le_dec E E0) as [HEl|HEe].
  - assert (2 ^ (E0 - 1) = 2 ^ (E0 - 1 - E) * 2 ^ E) as Hsplit.
    { rewrite <- Z.pow_add_r by lia. f_equal. lia. }
    assert (F64.rne P (q * 2 ^ E) ≤ (2 * K - 1) * 2 ^ (E0 - 1 - E)).
    { apply rne_le; [lia|]. rewrite Hsplit in Hlt. lia. }
    rewrite Hhalf. rewrite Hsplit.
    assert (0 < 2 ^ (E0 - 1 - E)) by (apply Z.pow_pos_nonneg; lia).
    nia.
  - assert (E = E0) as HEeq by lia.
    assert (F64.rne P (q * 2 ^ E) ≤ K - 1).
    { apply rne_lt_half; [lia|]. rewrite HEeq, Hhalf. lia. }
    rewrite <- HEeq. nia.
Qed.


Lemma round_nonneg p q :
  0 ≤ p → F64.round p q = F64.of_units (F64.round_pos p q).
Proof. intros Hp. unfold F64.round. by rewrite (proj2 (Z.ltb_ge p 0)). Qed.

(** Integers below [2^53] convert exactly. *)
Lemma of_int_exact z :
  0 ≤ z < 2 ^ 53 → F64.units (F64.of_int z) = z * 2 ^ 1074.
Proof.
  intros Hz. unfold F64.of_int. rewrite round_nonneg by lia. cbn [F64.units].
  apply Z.le_antisymm.
  - apply round_pos_le; lia.
  - apply round_pos_ge; lia.
Qed.

(** For a duration of less than [2^24] seconds, [Seconds] lies in the
    second the duration lies in. *)
Lemma Seconds_nonneg d :
  0 ≤ d < 2 ^ 24 * Second →
  d / Second * 2 ^ 1074 ≤ F64.units (Seconds d) < (d / Second + 1) * 2 ^ 1074.
Proof.
  intros Hd. unfold Seconds.
  rewrite Z.quot_div_nonneg, Z.rem_mod_nonneg by (unfold Second; lia).
  assert (Hsec : 0 ≤ d / Second < 2 ^ 24).
  { split; [apply Z.div_pos; unfold Second; lia|].
    apply Z.div_lt_upper_bound; unfold Second in *; lia. }
  assert (Hnsec : 0 ≤ d mod Second < Second)
    by (apply Z.mod_pos_bound; unfold Second; lia).
  set (sec := d / Second) in *. set (nsec := d mod Second) in *.
  unfold F64.add, F64.div.
  rewrite !of_int_exact by (unfold Second in *; lia).
  assert (HU : 2 ^ 1074 = 2 ^ 34 * 2 ^ 1040) by (by rewrite <- Z.pow_add_r).
  assert (HV : 0 < 2 ^ 1040) by (by apply Z.pow_pos_nonneg).
  rewrite Z.sgn_pos, Z.abs_eq, Z.mul_1_l by lia.
  rewrite (round_nonneg (nsec * 2 ^ 1074)) by lia. cbn [F64.units].
  set (f := F64.round_pos (nsec * 2 ^ 1074) (1000000000 * 2 ^ 1074)).
  assert (Hf0 : 0 ≤ f).
  { pose proof (round_pos_ge (nsec * 2 ^ 1074) (1000000000 * 2 ^ 1074) 0 0) as H.
    fold f in H. lia. }
  assert (Hf1 : f ≤ (2 ^ 34 - 17) * 2 ^ 1040).
  { apply round_pos_le; [lia..|].
    rewrite HU. unfold Second in Hnsec.
    generalize dependent (2 ^ 1040). intros V; intros. nia. }
  rewrite round_nonneg by lia. cbn [F64.units]. split.
  - apply round_pos_ge; [lia..|]. nia.
  - replace ((sec + 1) * 2 ^ 1074) with ((sec + 1) * 2 ^ 29 * 2 ^ 1045).
    2:{ rewrite <- Z.mul_assoc, <- Z.pow_add_r by lia. done. }
    apply round_pos_lt; [lia..| |].
    + change (1045 + 53) with (24 + 1074). rewrite Z.pow_add_r by lia.
      generalize dependent (2 ^ 1074). intros U; intros. nia.
    + change (1045 - 1) with (4 + 1040). rewrite (Z.pow_add_r 2 4) by lia.
      rewrite HU in *.
      generalize dependent (2 ^ 1040). intros V; intros. nia.
Qed.


Lemma round_pos_0 q : 0 < q → F64.round_pos 0 q = 0.
Proof.
  intros Hq. apply Z.le_antisymm.
  - apply (round_pos_le 0 q 0 0); lia.
  - apply (round_pos_ge 0 q 0 0); lia.
Qed.

Lemma round_opp p q : 0 < q → F64.round (- p) q = F64.opp (F64.round p q).
Proof.
  intros Hq. unfold F64.round, F64.opp. cbn [F64.units]. f_equal.
  destruct (Z.ltb_spec p 0), (Z.ltb_spec (- p) 0);
    rewrite ?Z.opp_involutive; try done; try lia.
  assert (p = 0) as -> by lia. change (- 0) with 0. by rewrite round_pos_0.
Qed.

Lemma of_int_opp z : F64.of_int (- z) = F64.opp (F64.of_int z).
Proof. by apply round_opp. Qed.

Lemma add_opp x y : F64.add (F64.opp x) (F64.opp y) = F64.opp (F64.add x y).
Proof.
  unfold F64.add. cbn [F64.opp F64.units].
  rewrite <- Z.opp_add_distr. apply round_opp. by apply Z.pow_pos_nonneg.
Qed.

Lemma div_opp x y :
  F64.units y ≠ 0 → F64.div (F64.opp x) y = F64.opp (F64.div x y).
Proof.
  intros Hy. unfold F64.div. cbn [F64.opp F64.units].
  rewrite Z.mul_opp_r. apply round_opp. lia.
Qed.

Lemma to_int_opp x : F64.to_int (F64.opp x) = - F64.to_int x.
Proof.
  unfold F64.to_int. cbn [F64.opp F64.units]. apply Z.quot_opp_l.
  apply Z.pow_nonzero; lia.
Qed.

(** [Seconds] is an odd function. *)
Lemma Seconds_opp d : Seconds (- d) = F64.opp (Seconds d).
Proof.
  unfold Seconds.
  rewrite Z.quot_opp_l, Z.rem_opp_l by (unfold Second; lia).
  rewrite !of_int_opp, div_opp, add_opp; [done|].
  rewrite of_int_exact by lia.
  apply Z.neq_mul_0. split; [lia|]. apply Z.pow_nonzero; lia.
Qed.

(** Below [2^24] seconds, [int64(ttl.Seconds())] is the whole seconds of
    [ttl], toward zero. *)
Lemma Seconds_to_int d :
  Z.abs d < 2 ^ 24 * Second → F64.to_int (Seconds d) = truncSeconds d.
Proof.
  assert (Hpos : ∀ d, 0 ≤ d < 2 ^ 24 * Second →
                      F64.to_int (Seconds d) = truncSeconds d).
  { clear d. intros d Hd. unfold truncSeconds, F64.to_int.
    pose proof (Seconds_nonneg d Hd) as [Hlo Hhi].
    assert (0 < 2 ^ 1074) by (by apply Z.pow_pos_nonneg).
    assert (0 ≤ d / Second) by (apply Z.div_pos; unfold Second; lia).
    rewrite !Z.quot_div_nonneg by (unfold Second; nia).
    symmetry.
    apply (Z.div_unique_pos _ _ _
             (F64.units (Seconds d) - d / Second * 2 ^ 1074)); lia. }
  intros Hd. destruct (Z_le_gt_dec 0 d) as [Hge|Hlt].
  - apply Hpos. lia.
  - rewrite <- (Z.opp_involutive d), Seconds_opp, to_int_opp.
    rewrite Hpos by lia. unfold truncSeconds.
    rewrite !Z.quot_opp_l by (unfold Second; lia). lia.
Qed.


(** The model of float64 computes what the kernel's binary64 numbers
    compute, here on durations around every case of [Seconds]. *)
Lemma Seconds_agrees_with_hardware :
  forallb agreesWithHardware
    [0; 1; -1; 499999999; 500000000; 999999999; -999999999; 1000000000;
     1500000000; -1500000000; 59999999999; 60000000000; 3600000000001;
     16777215999999999; 16777216999999999; -16777216999999999;
     33554431999999999; 123456789123456789; -123456789123456789;
     9007199254740993; 9223372036854775807; -9223372036854775808]
  = true.
Proof. vm_compute. reflexivity. Qed.

(** ** The timestamp [Add] stores *)

(** C8, refuted: for [ttl] = 16777216.999999999 s the float64 sum in
    [Seconds] rounds up to 16777217, so [Add] at second 1000 stores
    16778217, one more than the clock plus the truncated seconds. *)
Lemma Add_timestamp_rounds_up :
  destroyTimestamp <$>
    storage (Add "k" VNil 16777216999999999 1000 (mkCache ∅ (-1))) !! "k"
  = Some 16778217
  ∧ 1000 + truncSeconds 16777216999999999 = 16778216.
Proof. split; vm_compute; reflexivity. Qed.

(** C8, amended: for every [ttl] of less than [2^24] seconds in
    magnitude, [Add] stores the clock plus the whole seconds of [ttl],
    truncated toward zero; so for [-1s < ttl < 1s] it stores the current
    second and the entry is removed by a [Cleanup] in that same second. *)
Theorem Add_timestamp_truncates key v ttl now c :
  Z.abs ttl < 2 ^ 24 * Second →
  storage (Add key v ttl now c) !! key
    = Some (mkItem (add64 now (truncSeconds ttl)) v)
  ∧ (- Second < ttl < Second → in_int64 now →
       storage (Add key v ttl now c) !! key = Some (mkItem now v)
       ∧ storage (Cleanup now (Add key v ttl now c)) !! key = None).
Proof.
  intros Httl.
  assert (Hstored : storage (Add key v ttl now c) !! key
                    = Some (mkItem (add64 now (truncSeconds ttl)) v))
    by by rewrite Add_lookup, Seconds_to_int.
  split; [done|]. intros Hsub Hnow.
  assert (add64 now (truncSeconds ttl) = now) as Hsame.
  { assert (Z.quot ttl Second = 0) as Hquot.
    { apply Z.quot_small_iff; unfold Second in *; lia. }
    unfold add64, truncSeconds. rewrite Hquot, Z.add_0_r. by apply wrap64_id. }
  rewrite Hsame in Hstored. split; [done|].
  rewrite Cleanup_lookup, Hstored. cbn [destroyTimestamp].
  by rewrite decide_True.
Qed.

Lemma Add_timestamp_truncates_witness :
  storage (Add "k" VNil 500000000 100 sample) !! "k"
    = Some (mkItem (add64 100 (truncSeconds 500000000)) VNil)
  ∧ (- Second < 500000000 < Second → in_int64 100 →
       storage (Add "k" VNil 500000000 100 sample) !! "k" = Some (mkItem 100 VNil)
       ∧ storage (Cleanup 100 (Add "k" VNil 500000000 100 sample)) !! "k" = None).
Proof.
  apply (Add_timestamp_truncates "k" VNil 500000000 100 sample).
  vm_compute. reflexivity.
Defined.

(** ** Further properties of the store *)

(** X1: [Flush] removes every entry, stale or not: afterwards the
    mapping is empty and [Count] is 0. *)
Theorem Flush_empties c : storage (Flush c) = ∅ ∧ Count (Flush c) = 0.
Proof.
  assert (Hempty : storage (Flush c) = ∅) by apply Flush_storage.
  split; [done|]. unfold Count. by rewrite Hempty, map_size_empty.
Qed.

(** X2: [List] returns one pair per entry: its length is [Count], and a
    pair is listed exactly when its key is bound to its item. *)
Theorem List_lists_storage c :
  Z.of_nat (length (List c)) = Count c
  ∧ ∀ key item,
      mkKeyItemPair key item ∈ List c ↔ storage c !! key = Some item.
Proof.
  split.
  - unfold List, Count. by rewrite length_fmap, length_map_to_list.
  - intros key item. unfold List. rewrite list_elem_of_fmap. split.
    + intros ([k it] & [= -> ->] & Hin). by apply elem_of_map_to_list.
    + intros Hkey. exists (key, item). split; [done|].
      by apply elem_of_map_to_list.
Qed.

Lemma run_no_collector events p :
  collector p = None → collector (run p events) = None.
Proof.
  revert p. induction events as [|e events IH]; intros p Hp; [done|].
  simpl. apply IH. destruct e as [now|m]; simpl; [|done].
  unfold gc. by rewrite Hp.
Qed.

(** X3: with a non-positive interval [Cacher] starts no collector:
    there is none after any sequence of events, and a tick changes
    nothing, so entries go only by explicit calls. *)
Theorem Cacher_without_collector d events now :
  d ≤ 0 →
  collector (run (Cacher d) events) = None
  ∧ step (run (Cacher d) events) (Tick now) = run (Cacher d) events.
Proof.
  intros Hd.
  assert (Hnone : collector (run (Cacher d) events) = None).
  { apply run_no_collector. unfold Cacher. simpl.
    rewrite decide_False; [done|lia]. }
  split; [done|]. simpl. unfold gc. by rewrite Hnone.
Qed.

Lemma Cacher_without_collector_witness :
  collector (run (Cacher (-1)) [Call (CallAdd "a" VNil 0 10); Tick 10]) = None
  ∧ step (run (Cacher (-1)) [Call (CallAdd "a" VNil 0 10); Tick 10]) (Tick 11)
    = run (Cacher (-1)) [Call (CallAdd "a" VNil 0 10); Tick 10].
Proof.
  apply (Cacher_without_collector (-1) [Call (CallAdd "a" VNil 0 10); Tick 10] 11).
  lia.
Defined.

(** The spec's example: ["a"] added with a ttl of -1s and ["b"] with 60s;
    after [Cleanup] in the same second ["a"] is gone and ["b"] is found. *)
Example Cleanup_example :
  let c := Cleanup 100
             (Add "b" (VScalar Int 2) (60 * Second) 100
                (Add "a" (VScalar Int 1) (- Second) 100 (mkCache ∅ (-1)))) in
  Get "a" c = (VNil, false) ∧ Get "b" c = (VScalar Int 2, true).
Proof. vm_compute. done. Qed.

(** ** Further properties: composition, time and size *)

(** X4: [Add] on a key that is not bound raises [Count] by one; on a key
    that is bound it leaves [Count] as it is. *)
Theorem Add_Count key v ttl now c :
  (storage c !! key = None → Count (Add key v ttl now c) = Count c + 1)
  ∧ (is_Some (storage c !! key) → Count (Add key v ttl now c) = Count c).
Proof.
  unfold Count, Add. cbn [storage]. split.
  - intros Hkey. rewrite map_size_insert_None by done. lia.
  - intros Hkey. by rewrite map_size_insert_Some.
Qed.

(** X5: [Delete] of a bound key returns no error, lowers [Count] by one
    and keeps the cleanup interval. *)
Theorem Delete_present_Count key c item :
  storage c !! key = Some item →
  (Delete key c).2 = None
  ∧ Count (Delete key c).1 = Count c - 1
  ∧ cleanupInterval (Delete key c).1 = cleanupInterval c.
Proof.
  intros Hkey. rewrite (Delete_present _ _ _ Hkey). cbn.
  split; [done|]. split; [|done].
  unfold Count. cbn [storage].
  assert (size (storage c) ≠ 0%nat).
  { intros Hsz. apply map_size_empty_inv in Hsz. by rewrite Hsz in Hkey. }
  rewrite map_size_delete_Some by done. lia.
Qed.

Lemma Delete_present_Count_witness :
  (Delete "a" sample).2 = None
  ∧ Count (Delete "a" sample).1 = Count sample - 1
  ∧ cleanupInterval (Delete "a" sample).1 = cleanupInterval sample.
Proof.
  apply (Delete_present_Count "a" sample (mkItem 5 (VScalar Int 1))).
  reflexivity.
Defined.

(** X6: [Add] of a key that was not bound, followed by [Delete] of that
    key, gives back the cache as it was, with no error. *)
Theorem Delete_undoes_Add key v ttl now c :
  storage c !! key = None →
  Delete key (Add key v ttl now c) = (c, None).
Proof.
  intros Hkey. rewrite (Delete_present _ _ _ (Add_lookup key v ttl now c)).
  f_equal. apply Cache_eq; [|done]. intros k. unfold Add. cbn [storage].
  rewrite delete_insert_eq. destruct (decide (key = k)) as [<-|]; by simplify_map_eq.
Qed.

Lemma Delete_undoes_Add_witness :
  Delete "c" (Add "c" VNil Second 100 sample) = (sample, None).
Proof. apply (Delete_undoes_Add "c" VNil Second 100 sample). reflexivity. Defined.

(** X7: after [Delete(k)], whether it succeeded or not, [Get(k)] finds
    nothing and a second [Delete(k)] returns the "key not found" error and
    changes nothing. *)
Theorem Delete_then_absent key c :
  Get key (Delete key c).1 = (VNil, false)
  ∧ Delete key (Delete key c).1
    = ((Delete key c).1, Some (errorsNew "key not found")).
Proof.
  assert (Hgone : storage (Delete key c).1 !! key = None).
  { unfold Delete. destruct (storage c !! key) eqn:Hkey; cbn; [|done].
    apply lookup_delete_eq. }
  split.
  - unfold Get. by rewrite Hgone.
  - by apply Delete_missing.
Qed.

(** X8: a second [Add] on the same key makes the first one as if it had
    never happened, and [Add]s on different keys commute. *)
Theorem Add_Add key1 v1 ttl1 now1 key2 v2 ttl2 now2 c :
  Add key1 v2 ttl2 now2 (Add key1 v1 ttl1 now1 c) = Add key1 v2 ttl2 now2 c
  ∧ (key1 ≠ key2 →
     Add key2 v2 ttl2 now2 (Add key1 v1 ttl1 now1 c)
     = Add key1 v1 ttl1 now1 (Add key2 v2 ttl2 now2 c)).
Proof.
  unfold Add. cbn [storage cleanupInterval]. split.
  - by rewrite insert_insert_eq.
  - intros Hne. f_equal. by apply insert_insert_ne.
Qed.

Lemma Sets_cons key v ttl now calls c :
  Sets ((key, v, ttl, now) :: calls) c = Sets calls (Add key v ttl now c).
Proof. done. Qed.

Lemma Sets_app calls1 calls2 c :
  Sets (calls1 ++ calls2) c = Sets calls2 (Sets calls1 c).
Proof. apply foldl_app. Qed.

Lemma Sets_lookup_other calls key c :
  key ∉ (λ call : string * GoValue * Z * Z, call.1.1.1) <$> calls →
  storage (Sets calls c) !! key = storage c !! key.
Proof.
  revert c. induction calls as [|[[[k v] ttl] now] calls IH]; intros c Hnot; [done|].
  rewrite fmap_cons, not_elem_of_cons in Hnot. destruct Hnot as [Hne Hnot].
  cbn in Hne. rewrite Sets_cons, IH by done. by apply Add_lookup_ne.
Qed.

(** X9: in any sequence of [Add] calls, a key is bound at the end to
    the entry of the last call made on it. *)
Theorem Sets_last_wins calls key v ttl now rest c :
  key ∉ (λ call : string * GoValue * Z * Z, call.1.1.1) <$> rest →
  storage (Sets (calls ++ (key, v, ttl, now) :: rest) c) !! key
  = Some (mkItem (add64 now (F64.to_int (Seconds ttl))) v).
Proof.
  intros Hnot. rewrite Sets_app, Sets_cons, Sets_lookup_other by done.
  apply Add_lookup.
Qed.

Lemma Sets_last_wins_witness :
  storage (Sets ([("k", VNil, Second, 1)]
                 ++ ("k", VScalar Int 7, 2 * Second, 5) :: [("z", VNil, 0, 5)])
             sample) !! "k"
  = Some (mkItem (add64 5 (F64.to_int (Seconds (2 * Second)))) (VScalar Int 7)).
Proof.
  apply (Sets_last_wins [("k", VNil, Second, 1)] "k" (VScalar Int 7)
           (2 * Second) 5 [("z", VNil, 0, 5)] sample).
  intros Hin. apply list_elem_of_singleton in Hin. discriminate Hin.
Defined.

(** X10: after a sequence of [Add] calls the bound keys are exactly the
    keys bound before and the keys of the calls. *)
Theorem Sets_keys calls c key :
  is_Some (storage (Sets calls c) !! key)
  ↔ is_Some (storage c !! key)
    ∨ key ∈ (λ call : string * GoValue * Z * Z, call.1.1.1) <$> calls.
Proof.
  revert c. induction calls as [|[[[k v] ttl] now] calls IH]; intros c.
  - cbn. rewrite elem_of_nil. tauto.
  - rewrite Sets_cons, IH, fmap_cons, elem_of_cons. cbn [fst].
    destruct (decide (k = key)) as [->|Hne].
    + rewrite Add_lookup. split; [auto|]. intros _. left. eauto.
    + rewrite Add_lookup_ne by done. split; [tauto|].
      intros [?|[?|?]]; auto. congruence.
Qed.

(** X11: [Cleanup] only removes: what it leaves is part of what was
    there (every kept entry unchanged) and [Count] does not grow; and a
    sweep at a later second leaves no more than one at an earlier second. *)
Theorem Cleanup_shrinks now1 now2 c :
  storage (Cleanup now1 c) ⊆ storage c
  ∧ Count (Cleanup now1 c) ≤ Count c
  ∧ (now1 ≤ now2 → storage (Cleanup now2 c) ⊆ storage (Cleanup now1 c)).
Proof.
  assert (Hsub : ∀ now, storage (Cleanup now c) ⊆ storage c).
  { intros now. apply map_subseteq_spec. intros k it.
    rewrite Cleanup_lookup. destruct (storage c !! k); [|done].
    by case_decide. }
  split; [done|]. split.
  - unfold Count. apply inj_le, map_subseteq_size, Hsub.
  - intros Hle. apply map_subseteq_spec. intros k it.
    rewrite !Cleanup_lookup. destruct (storage c !! k); [|done].
    repeat case_decide; try done. lia.
Qed.

(** X12: two sweeps at any two clock readings amount to one sweep at
    the later reading, so sweeps commute. *)
Theorem Cleanup_at_two_times now1 now2 c :
  Cleanup now2 (Cleanup now1 c) = Cleanup (Z.max now1 now2) c
  ∧ Cleanup now2 (Cleanup now1 c) = Cleanup now1 (Cleanup now2 c).
Proof.
  split; [apply Cleanup_Cleanup|].
  by rewrite !Cleanup_Cleanup, Z.max_comm.
Qed.

(** X13: [Cleanup] reads the clock once per entry.  If the readings
    of one sweep all lie between [t0] and [t1], an entry due by [t0] is
    removed, an entry due after [t1] is kept, and the result lies between
    those of a sweep at [t1] and a sweep at [t0]. *)
Theorem CleanupClock_between clock t0 t1 c key item :
  (∀ k, t0 ≤ clock k ≤ t1) →
  storage c !! key = Some item →
  (destroyTimestamp item ≤ t0 → storage (CleanupClock clock c) !! key = None)
  ∧ (t1 < destroyTimestamp item → storage (CleanupClock clock c) !! key = Some item)
  ∧ storage (Cleanup t1 c) ⊆ storage (CleanupClock clock c)
  ∧ storage (CleanupClock clock c) ⊆ storage (Cleanup t0 c).
Proof.
  intros Hclock Hkey. rewrite CleanupClock_lookup, Hkey.
  pose proof (Hclock key) as Hk.
  split; [intros ?; rewrite decide_True; [done|lia]|].
  split; [intros ?; rewrite decide_False; [done|lia]|].
  split; apply map_subseteq_spec; intros k it;
    rewrite Cleanup_lookup, CleanupClock_lookup;
    pose proof (Hclock k); destruct (storage c !! k); try done;
    repeat case_decide; try done; lia.
Qed.

Lemma CleanupClock_between_witness :
  (destroyTimestamp (mkItem 60 (VScalar Int 2)) ≤ 59 →
     storage (CleanupClock (λ k, if String.eqb k "a" then 59 else 60) sample)
       !! "b" = None)
  ∧ (60 < destroyTimestamp (mkItem 60 (VScalar Int 2)) →
     storage (CleanupClock (λ k, if String.eqb k "a" then 59 else 60) sample)
       !! "b" = Some (mkItem 60 (VScalar Int 2)))
  ∧ storage (Cleanup 60 sample)
    ⊆ storage (CleanupClock (λ k, if String.eqb k "a" then 59 else 60) sample)
  ∧ storage (CleanupClock (λ k, if String.eqb k "a" then 59 else 60) sample)
    ⊆ storage (Cleanup 59 sample).
Proof.
  apply (CleanupClock_between (λ k, if String.eqb k "a" then 59 else 60)
           59 60 sample "b" (mkItem 60 (VScalar Int 2))).
  - intros k. destruct (String.eqb k "a"); lia.
  - reflexivity.
Defined.

(** For any duration below [2^53] seconds, [Seconds] lies between the
    whole seconds of the duration and the next second, and is exact when the
    duration is a whole number of seconds. *)
Lemma Seconds_nonneg_wide d :
  0 ≤ d < 2 ^ 52 * Second →
  d / Second * 2 ^ 1074 ≤ F64.units (Seconds d) ≤ (d / Second + 1) * 2 ^ 1074
  ∧ (d mod Second = 0 → F64.units (Seconds d) = d / Second * 2 ^ 1074).
Proof.
  intros Hd. unfold Seconds.
  rewrite Z.quot_div_nonneg, Z.rem_mod_nonneg by (unfold Second; lia).
  assert (Hsec : 0 ≤ d / Second < 2 ^ 52).
  { split; [apply Z.div_pos; unfold Second; lia|].
    apply Z.div_lt_upper_bound; unfold Second in *; lia. }
  assert (Hnsec : 0 ≤ d mod Second < Second)
    by (apply Z.mod_pos_bound; unfold Second; lia).
  set (sec := d / Second) in *. set (nsec := d mod Second) in *.
  unfold F64.add, F64.div.
  rewrite !of_int_exact by (unfold Second in *; lia).
  assert (HU : 0 < 2 ^ 1074) by (by apply Z.pow_pos_nonneg).
  rewrite Z.sgn_pos, Z.abs_eq, Z.mul_1_l by lia.
  rewrite (round_nonneg (nsec * 2 ^ 1074)) by lia. cbn [F64.units].
  set (f := F64.round_pos (nsec * 2 ^ 1074) (1000000000 * 2 ^ 1074)).
  assert (Hf0 : 0 ≤ f).
  { pose proof (round_pos_ge (nsec * 2 ^ 1074) (1000000000 * 2 ^ 1074) 0 0) as H.
    fold f in H. lia. }
  assert (Hf1 : f ≤ 1 * 2 ^ 1074).
  { apply round_pos_le; [lia..|]. unfold Second in Hnsec.
    generalize dependent (2 ^ 1074). intros U; intros. nia. }
  assert (Hf2 : nsec = 0 → f = 0).
  { intros Hz. unfold f. rewrite Hz, Z.mul_0_l. apply round_pos_0. lia. }
  rewrite round_nonneg by lia. cbn [F64.units].
  assert (Hlo : sec * 2 ^ 1074
                ≤ F64.round_pos (sec * 2 ^ 1074 + f) (2 ^ 1074)).
  { apply round_pos_ge; [lia..|]. nia. }
  assert (Hhi : ∀ N, 0 ≤ N < 2 ^ 53 → sec * 2 ^ 1074 + f ≤ N * 2 ^ 1074 →
                F64.round_pos (sec * 2 ^ 1074 + f) (2 ^ 1074) ≤ N * 2 ^ 1074).
  { intros N HN Hle. apply round_pos_le; [lia..|]. nia. }
  split.
  - split; [done|]. apply Hhi; lia.
  - intros Hz. apply Z.le_antisymm; [|done]. apply Hhi; [lia|].
    rewrite Hf2 by done. lia.
Qed.

Lemma units_to_int_bounds x lo hi :
  0 ≤ lo → lo * 2 ^ 1074 ≤ F64.units x ≤ hi * 2 ^ 1074 →
  lo ≤ F64.to_int x ≤ hi.
Proof.
  intros Hlo [H1 H2]. unfold F64.to_int.
  assert (0 < 2 ^ 1074) by (by apply Z.pow_pos_nonneg).
  rewrite Z.quot_div_nonneg by nia. split.
  - apply Z.div_le_lower_bound; lia.
  - apply Z.div_le_upper_bound; lia.
Qed.

(** The seconds [Add] adds to the clock, for any int64 [ttl]. *)
Lemma Seconds_to_int_bounds ttl :
  in_int64 ttl →
  (0 ≤ ttl → truncSeconds ttl ≤ F64.to_int (Seconds ttl) ≤ truncSeconds ttl + 1)
  ∧ (ttl ≤ 0 → truncSeconds ttl - 1 ≤ F64.to_int (Seconds ttl) ≤ truncSeconds ttl)
  ∧ (Z.rem ttl Second = 0 → F64.to_int (Seconds ttl) = truncSeconds ttl).
Proof.
  intros Hin. unfold in_int64, int64_min, int64_max in Hin.
  assert (Hpos : ∀ d, 0 ≤ d ≤ 2 ^ 63 →
            d / Second ≤ F64.to_int (Seconds d) ≤ d / Second + 1
            ∧ (d mod Second = 0 → F64.to_int (Seconds d) = d / Second)).
  { intros d Hd.
    assert (Hwide : 0 ≤ d < 2 ^ 52 * Second) by (unfold Second; lia).
    pose proof (Seconds_nonneg_wide d Hwide) as [Hb Hex].
    assert (0 ≤ d / Second) by (apply Z.div_pos; unfold Second; lia).
    split; [by apply units_to_int_bounds|].
    intros Hz. specialize (Hex Hz).
    assert (d / Second ≤ F64.to_int (Seconds d) ≤ d / Second); [|lia].
    apply units_to_int_bounds; lia. }
  unfold truncSeconds.
  destruct (Z_le_gt_dec 0 ttl) as [Hge|Hlt].
  - destruct (Hpos ttl ltac:(lia)) as [Hb Hex].
    rewrite Z.quot_div_nonneg by (unfold Second; lia).
    split; [done|]. split.
    + intros Hle. assert (ttl = 0) as -> by lia. vm_compute. split; discriminate.
    + rewrite Z.rem_mod_nonneg by (unfold Second; lia). done.
  - destruct (Hpos (- ttl) ltac:(lia)) as [Hb Hex].
    rewrite <- (Z.opp_involutive ttl), Seconds_opp, to_int_opp.
    rewrite Z.quot_opp_l, Z.rem_opp_l by (unfold Second; lia).
    rewrite Z.quot_div_nonneg, Z.rem_mod_nonneg by (unfold Second; lia).
    split; [lia|]. split; [lia|]. intros Hz. rewrite Hex; lia.
Qed.

Lemma truncSeconds_range ttl :
  in_int64 ttl → - 9223372036 ≤ truncSeconds ttl ≤ 9223372036.
Proof.
  unfold in_int64, int64_min, int64_max, truncSeconds, Second. intros Hin.
  destruct (Z_le_gt_dec 0 ttl).
  - rewrite Z.quot_div_nonneg by lia. split.
    + assert (0 ≤ ttl / 1000000000) by (apply Z.div_pos; lia). lia.
    + assert (ttl / 1000000000 < 9223372037)
        by (apply Z.div_lt_upper_bound; lia).
      lia.
  - rewrite <- (Z.opp_involutive ttl), Z.quot_opp_l by lia.
    rewrite Z.quot_div_nonneg by lia.
    assert (0 ≤ - ttl / 1000000000) by (apply Z.div_pos; lia).
    assert (- ttl / 1000000000 < 9223372037)
      by (apply Z.div_lt_upper_bound; lia).
    lia.
Qed.

(** The timestamp stored for a [ttl >= 0]: not before the clock plus the
    whole seconds of [ttl], and at most one second after. *)
Lemma Add_stamp_nonneg ttl now :
  in_int64 ttl → 0 ≤ ttl → 0 ≤ now < 2 ^ 62 →
  now + truncSeconds ttl ≤ add64 now (F64.to_int (Seconds ttl))
    ≤ now + truncSeconds ttl + 1.
Proof.
  intros Hin Hge Hnow.
  destruct (Seconds_to_int_bounds ttl Hin) as [Hb _]. specialize (Hb Hge).
  pose proof (truncSeconds_range ttl Hin).
  unfold add64. rewrite wrap64_id; [lia|].
  unfold in_int64, int64_min, int64_max. lia.
Qed.

(** The timestamp stored for a [ttl <= 0] is not after the clock. *)
Lemma Add_stamp_nonpos ttl now :
  in_int64 ttl → ttl ≤ 0 → 0 ≤ now ≤ int64_max →
  add64 now (F64.to_int (Seconds ttl)) ≤ now.
Proof.
  intros Hin Hle Hnow.
  destruct (Seconds_to_int_bounds ttl Hin) as (_ & Hb & _). specialize (Hb Hle).
  pose proof (truncSeconds_range ttl Hin).
  assert (truncSeconds ttl ≤ 0).
  { unfold truncSeconds. rewrite <- (Z.opp_involutive ttl), Z.quot_opp_l
      by (unfold Second; lia).
    assert (0 ≤ Z.quot (- ttl) Second)
      by (apply Z.quot_pos; unfold Second; lia).
    lia. }
  unfold add64. rewrite wrap64_id; [lia|].
  unfold in_int64, int64_min, int64_max in *. lia.
Qed.

(** X15: for every int64 [ttl >= 0] (the clock between 0 and [2^62]),
    the entry [Add] stores is kept by every sweep before the clock plus the
    whole seconds of [ttl], and removed by every sweep from one second after
    that on. *)
Theorem Add_eviction_window key v ttl now c t :
  in_int64 ttl → 0 ≤ ttl → 0 ≤ now < 2 ^ 62 →
  (t < now + truncSeconds ttl →
     storage (Cleanup t (Add key v ttl now c)) !! key
     = storage (Add key v ttl now c) !! key)
  ∧ (now + truncSeconds ttl + 1 ≤ t →
     storage (Cleanup t (Add key v ttl now c)) !! key = None).
Proof.
  intros Hin Hge Hnow.
  pose proof (Add_stamp_nonneg ttl now Hin Hge Hnow) as Hstamp.
  rewrite Cleanup_lookup, Add_lookup. cbn [destroyTimestamp].
  split; intros Ht.
  - rewrite decide_False; [done|lia].
  - rewrite decide_True; [done|lia].
Qed.

Lemma Add_eviction_window_witness :
  (150 < 100 + truncSeconds (90 * Second + 500000000) →
     storage (Cleanup 150 (Add "k" VNil (90 * Second + 500000000) 100 sample))
       !! "k"
     = storage (Add "k" VNil (90 * Second + 500000000) 100 sample) !! "k")
  ∧ (100 + truncSeconds (90 * Second + 500000000) + 1 ≤ 150 →
     storage (Cleanup 150 (Add "k" VNil (90 * Second + 500000000) 100 sample))
       !! "k" = None).
Proof.
  apply (Add_eviction_window "k" VNil (90 * Second + 500000000) 100 sample 150).
  - unfold in_int64, int64_min, int64_max, Second. lia.
  - unfold Second. lia.
  - lia.
Defined.

(** X16: for every int64 [ttl <= 0], the entry [Add] stores is
    removed by a sweep in the same second or any later one. *)
Theorem Add_nonpositive_ttl_stale key v ttl now c t :
  in_int64 ttl → ttl ≤ 0 → 0 ≤ now ≤ int64_max → now ≤ t →
  storage (Cleanup t (Add key v ttl now c)) !! key = None.
Proof.
  intros Hin Hle Hnow Ht.
  pose proof (Add_stamp_nonpos ttl now Hin Hle Hnow).
  rewrite Cleanup_lookup, Add_lookup. cbn [destroyTimestamp].
  rewrite decide_True; [done|lia].
Qed.

Lemma Add_nonpositive_ttl_stale_witness :
  storage (Cleanup 100 (Add "k" VNil (-1) 100 sample)) !! "k" = None.
Proof.
  apply (Add_nonpositive_ttl_stale "k" VNil (-1) 100 sample 100).
  - unfold in_int64, int64_min, int64_max. lia.
  - lia.
  - unfold int64_max. lia.
  - lia.
Defined.

(** X17: for a [ttl] of a whole number [n] of seconds, of any size,
    [Add] stores exactly the clock plus [n]. *)
Theorem Add_whole_seconds key v n now c :
  in_int64 (n * Second) →
  storage (Add key v (n * Second) now c) !! key = Some (mkItem (add64 now n) v).
Proof.
  intros Hin. rewrite Add_lookup.
  destruct (Seconds_to_int_bounds _ Hin) as (_ & _ & Hex).
  rewrite Hex by (apply Z.rem_mul; unfold Second; lia).
  unfold truncSeconds. by rewrite Z.quot_mul by (unfold Second; lia).
Qed.

Lemma Add_whole_seconds_witness :
  storage (Add "k" VNil (16777217 * Second) 100 sample) !! "k"
  = Some (mkItem (add64 100 16777217) VNil).
Proof.
  apply (Add_whole_seconds "k" VNil 16777217 100 sample).
  unfold in_int64, int64_min, int64_max, Second. lia.
Defined.

Lemma run_ticks_no_collector p ts :
  collector p = None → run p (Tick <$> ts) = p.
Proof.
  intros Hp. induction ts as [|t ts IH]; [done|].
  cbn. unfold gc. rewrite Hp. apply IH.
Qed.

(** X18: an entry added with [ttl <= 0] is gone after the next tick
    when the collector runs, and stays through any number of ticks when no
    collector was started. *)
Theorem stale_entry_goes_at_next_tick p key v ttl now :
  in_int64 ttl → ttl ≤ 0 → 0 ≤ now ≤ int64_max →
  (∀ t, collector p = Some Ranging → now ≤ t →
     storage (cache (step (step p (Call (CallAdd key v ttl now))) (Tick t)))
       !! key = None)
  ∧ (∀ ts, collector p = None →
       storage (cache (run (step p (Call (CallAdd key v ttl now))) (Tick <$> ts)))
         !! key
       = Some (mkItem (add64 now (F64.to_int (Seconds ttl))) v)).
Proof.
  intros Hin Hle Hnow. split.
  - intros t Hp Ht. cbn. unfold gc. cbn. rewrite Hp. cbn [cache].
    pose proof (Add_stamp_nonpos ttl now Hin Hle Hnow).
    rewrite Cleanup_lookup, Add_lookup. cbn [destroyTimestamp].
    rewrite decide_True; [done|lia].
  - intros ts Hp. rewrite run_ticks_no_collector by done.
    cbn. apply Add_lookup.
Qed.

Lemma stale_entry_goes_at_next_tick_witness :
  (∀ t, collector (Cacher 1) = Some Ranging → 100 ≤ t →
     storage (cache (step (step (Cacher 1) (Call (CallAdd "k" VNil 0 100)))
                          (Tick t))) !! "k" = None)
  ∧ (∀ ts, collector (Cacher 1) = None →
       storage (cache (run (step (Cacher 1) (Call (CallAdd "k" VNil 0 100)))
                           (Tick <$> ts))) !! "k"
       = Some (mkItem (add64 100 (F64.to_int (Seconds 0))) VNil)).
Proof.
  apply (stale_entry_goes_at_next_tick (Cacher 1) "k" VNil 0 100).
  - unfold in_int64, int64_min, int64_max. lia.
  - lia.
  - unfold int64_max. lia.
Defined.

Lemma wrap64_total_entrySize l z :
  wrap64 (z + total entrySize l) = wrap64 (z + total entryBytes l).
Proof.
  revert z. induction l as [|[k it] l IH]; intros z; [done|].
  cbn [total foldr]. fold (total entrySize l). fold (total entryBytes l).
  replace (z + (entrySize (k, it) + total entrySize l))
    with (z + total entrySize l + entrySize (k, it)) by lia.
  rewrite wrap64_entrySize.
  replace (z + total entrySize l + Z.of_nat (String.length k)
           + isize (data it) + 8)
    with (z + Z.of_nat (String.length k) + isize (data it) + 8
          + total entrySize l) by lia.
  rewrite IH. f_equal. unfold entryBytes. cbn [fst snd]. lia.
Qed.

Lemma Size_entryBytes c :
  Size c = wrap64 (total entryBytes (map_to_list (storage c))).
Proof.
  rewrite Size_total.
  pose proof (wrap64_total_entrySize (map_to_list (storage c)) 0) as H.
  by rewrite !Z.add_0_l in H.
Qed.

(** X20: [Size] is the sum, over the entries, of the key's length, the
    size of the data and 8, wrapped to an [int]; it is that sum itself when
    the sum fits, and 0 after [Flush]. *)
Theorem Size_closed_form c :
  Size c = wrap64 (total entryBytes (map_to_list (storage c)))
  ∧ (in_int64 (total entryBytes (map_to_list (storage c))) →
     Size c = total entryBytes (map_to_list (storage c)))
  ∧ Size (Flush c) = 0.
Proof.
  split; [apply Size_entryBytes|]. split.
  - intros Hin. rewrite Size_entryBytes. by apply wrap64_id.
  - unfold Size. by rewrite Flush_storage, map_to_list_empty.
Qed.

(** X21: [Size] does not depend on the timestamps: [Add] of the same
    key and data gives the same [Size] whatever the [ttl] and the clock. *)
Theorem Size_ignores_timestamp key v ttl1 now1 ttl2 now2 c :
  Size (Add key v ttl1 now1 c) = Size (Add key v ttl2 now2 c).
Proof.
  rewrite !Size_entryBytes. unfold Add. cbn [storage]. f_equal.
  rewrite <- (insert_delete_eq (storage c) key (mkItem (add64 now1 _) v)).
  rewrite <- (insert_delete_eq (storage c) key (mkItem (add64 now2 _) v)).
  rewrite !(total_perm _ _ _ (map_to_list_insert _ _ _ (lookup_delete_eq _ _))).
  done.
Qed.

(** X22: [Delete] of a bound key lowers [Size] by exactly what the
    entry was charged: the key's length, the size of its data and 8. *)
Theorem Size_Delete key c item :
  storage c !! key = Some item →
  Size c = wrap64 (Size (Delete key c).1 + Z.of_nat (String.length key)
                   + isize (data item) + 8).
Proof.
  intros Hkey. rewrite (Delete_present _ _ _ Hkey). cbn [fst].
  rewrite !Size_entryBytes. cbn [storage].
  rewrite <- (total_perm entryBytes _ _ (map_to_list_delete _ _ _ Hkey)).
  cbn [total foldr]. fold (total entryBytes (map_to_list (delete key (storage c)))).
  rewrite <- !Z.add_assoc, wrap64_wrap64_add_l. f_equal.
  unfold entryBytes. cbn [fst snd]. lia.
Qed.

Lemma Size_Delete_witness :
  Size sample
  = wrap64 (Size (Delete "a" sample).1 + Z.of_nat (String.length "a")
            + isize (data (mkItem 5 (VScalar Int 1))) + 8).
Proof.
  apply (Size_Delete "a" sample (mkItem 5 (VScalar Int 1))). reflexivity.
Defined.

(** X24: every pair [List] returns is found by [Get] under its key with
    the same data, no key is listed twice, and after [Cleanup] every listed
    pair has its timestamp after the sweep's clock reading. *)
Theorem List_entries c now :
  (∀ p, p ∈ List c → Get (Key p) c = (Data (Item_ p), true))
  ∧ NoDup (Key <$> List c)
  ∧ (∀ p, p ∈ List (Cleanup now c) → now < DestroyTimestamp (Item_ p)).
Proof.
  assert (Hin : ∀ c p, p ∈ List c → storage c !! Key p = Some (Item_ p)).
  { intros c' p. unfold List. rewrite list_elem_of_fmap.
    intros ([k it] & -> & Hin). by apply elem_of_map_to_list. }
  split; [|split].
  - intros p Hp. unfold Get. by rewrite (Hin _ _ Hp).
  - unfold List. rewrite <- list_fmap_compose.
    apply (NoDup_fst_map_to_list (storage c)).
  - intros p Hp. apply Hin in Hp. rewrite Cleanup_lookup in Hp.
    destruct (storage c !! Key p) as [it|]; [|done].
    case_decide; [done|]. injection Hp as <-. unfold DestroyTimestamp. lia.
Qed.



(** X19: ticks never remove a live entry: an entry is still there,
    unchanged, after any ticks at seconds before its timestamp. *)
Theorem ticks_keep_live p ts key item :
  storage (cache p) !! key = Some item →
  Forall (λ t, t < destroyTimestamp item) ts →
  storage (cache (run p (Tick <$> ts))) !! key = Some item.
Proof.
  intros Hkey Hts. revert p Hkey.
  induction Hts as [|t ts Ht _ IH]; intros p Hkey; [done|].
  cbn. apply IH. unfold gc.
  destruct (collector p) as [[|]|]; [|done..].
  cbn [cache]. rewrite Cleanup_lookup, Hkey. cbn.
  rewrite decide_False; [done|lia].
Qed.

Lemma ticks_keep_live_witness :
  storage (cache (run (mkProcess sample (Some Ranging)) (Tick <$> [10; 59])))
    !! "b" = Some (mkItem 60 (VScalar Int 2)).
Proof.
  apply (ticks_keep_live (mkProcess sample (Some Ranging)) [10; 59] "b"
           (mkItem 60 (VScalar Int 2))).
  - reflexivity.
  - repeat constructor.
Defined.

